(** * go-cache: an in-memory cache with expiring entries

    A shallow embedding of [cache/cache.go] and of its earlier revision
    without logging, followed by the properties of the store that the
    specification states.

    The store is a Go struct holding a [map[string]Item] behind an
    [RWMutex].  Every exported method takes the lock around its whole map
    manipulation, so each call is one atomic step on the store; the
    embedding models these steps as state transformers and leaves the
    mutex implicit. *)

From stdpp Require Import gmap strings list fin_maps.

#[local] Open Scope Z_scope.

(** ** The fragment of package [time] the cache uses *)

Module GoTime.

(** [time.Duration] is an [int64] count of nanoseconds. *)
Definition Duration := Z.

Definition Nanosecond : Duration := 1.
Definition Microsecond : Duration := 1000 * Nanosecond.
Definition Millisecond : Duration := 1000 * Microsecond.
Definition Second : Duration := 1000 * Millisecond.

(** A [time.Time] instant, counted in nanoseconds since the Unix epoch.
    The range of [time.Time] is far wider than that of [int64]
    nanoseconds, so [Add] is exact here and only [UnixNano] truncates. *)
Definition Time := Z.

Definition Add (t : Time) (d : Duration) : Time := t + d.

Definition min_int64 : Z := - 2 ^ 63.
Definition max_int64 : Z := 2 ^ 63 - 1.

(** Two's complement truncation to 64 bits. *)
Definition wrap64 (z : Z) : Z := (z + 2 ^ 63) mod 2 ^ 64 - 2 ^ 63.

Definition UnixNano (t : Time) : Z := wrap64 t.

Definition representable (z : Z) : Prop := min_int64 <= z <= max_int64.

End GoTime.

Import GoTime.

(** ** The injected time source ([clockwork.Clock]) *)

Module Clockwork.

(** A clock is the sequence of the answers it gives to successive calls
    of [Now], with the number of calls made so far.  A wall clock is any
    such sequence; a fake clock answers the same instant until it is
    advanced. *)
Record Clock := mkClock { reading : nat -> Time; cursor : nat }.

(** The instant the next call of [Now] returns. *)
Definition peek (c : Clock) : Time := reading c (cursor c).

Definition Now (c : Clock) : Time * Clock :=
  (peek c, {| reading := reading c; cursor := S (cursor c) |}).

Definition NewFakeClockAt (t : Time) : Clock :=
  {| reading := fun _ => t; cursor := 0 |}.

Definition Advance (d : Duration) (c : Clock) : Clock :=
  {| reading := fun n => reading c n + d; cursor := cursor c |}.

End Clockwork.

Import Clockwork.

(** ** Values and items *)

(** A Go [any]: the nil interface or a dynamic value. *)
Definition any (V : Type) : Type := option V.

Definition nil {V : Type} : any V := None.

Record Item (V : Type) := mkItem { Value : any V; Expiration : Z }.
Arguments mkItem {V} _ _.
Arguments Value {V} _.
Arguments Expiration {V} _.

(** The unbuffered channel [stopCleanup]: all that matters of it is how
    many goroutines are parked in a receive on it. *)
Record Chan := mkChan { receivers : nat }.

(** How a call that may send on a channel ends. *)
Inductive Outcome := Returned | BlockedOnSend.

(** ** A small state monad *)

Definition M (S A : Type) : Type := S -> A * S.

Definition ret {S A} (a : A) : M S A := fun s => (a, s).

Definition bind {S A B} (m : M S A) (k : A -> M S B) : M S B :=
  fun s => let (a, s') := m s in k a s'.

Definition gets {S A} (f : S -> A) : M S A := fun s => (f s, s).

Definition modify {S} (f : S -> S) : M S unit := fun s => (tt, f s).

Definition exec {S A} (m : M S A) (s : S) : S := snd (m s).

Definition eval {S A} (m : M S A) (s : S) : A := fst (m s).

Declare Scope go_scope.
Delimit Scope go_scope with go.
Notation "'let*' x ':=' m 'in' k" := (bind m (fun x => k))
  (at level 10, x name, m at level 100, k at level 200) : go_scope.
Notation "m ';;' k" := (bind m (fun _ => k))
  (at level 100, k at level 200, right associativity) : go_scope.

(** Go's short-circuit [a && b] when evaluating [b] has an effect. *)
Definition andThen {S} (a : bool) (b : M S bool) : M S bool :=
  if a then b else ret false.

(** [ch <- v] on an unbuffered channel: it completes by handing the value
    to a parked receiver, which then leaves its receive; with no receiver
    the sender stays blocked. *)
Definition send (ch : Chan) : Outcome * Chan :=
  match receivers ch with
  | O => (BlockedOnSend, ch)
  | S n => (Returned, {| receivers := n |})
  end.

(** The [range] loop of [deleteExpired], run over the entries in the order
    [l] in which the iteration meets them: Go leaves that order
    unspecified, and deleting the current entry during the iteration is
    allowed. *)
Fixpoint sweep {V} (now : Z) (l : list (string * Item V))
    (m : gmap string (Item V)) : gmap string (Item V) :=
  match l with
  | [] => m
  | (k, v) :: l' =>
      sweep now l'
        (if (0 <? Expiration v) && (Expiration v <? now)
         then delete k m else m)
  end.

(** What the background goroutine's [select] can receive. *)
Inductive Wakeup := Tick | StopSignal.

(** ** The fragment of [log/slog] the cache uses *)

Module Slog.

Inductive Level := LevelDebug | LevelInfo | LevelWarn | LevelError.

Definition severity (l : Level) : Z :=
  match l with
  | LevelDebug => -4
  | LevelInfo => 0
  | LevelWarn => 4
  | LevelError => 8
  end.

Record Line := mkLine { lineLevel : Level; msg : string; args : list string }.

(** A logger: the minimum level of its handler and what the handler has
    written so far, oldest line first. *)
Record Logger := mkLogger { minLevel : Level; written : list Line }.

Definition Default : Logger := {| minLevel := LevelInfo; written := [] |}.

Definition log (lv : Level) (m : string) (a : list string) (l : Logger)
    : Logger :=
  if severity (minLevel l) <=? severity lv
  then {| minLevel := minLevel l;
          written := written l ++ [mkLine lv m a] |}
  else l.

Definition Debug := log LevelDebug.

End Slog.

(** ** [cache/cache.go] *)

Module Logged.

Section Store.
Context {V : Type}.

Record Cache := mkCache {
  items : gmap string (Item V);
  defaultExpiration : Duration;
  cleanupInterval : Duration;
  stopCleanup : Chan;
  clock : Clock;
  logger : Slog.Logger
}.

#[local] Open Scope go_scope.

Definition setItems (f : gmap string (Item V) -> gmap string (Item V))
    : M Cache unit :=
  modify (fun c =>
    mkCache (f (items c)) (defaultExpiration c) (cleanupInterval c)
            (stopCleanup c) (clock c) (logger c)).

(** [c.clock.Now()] *)
Definition clockNow : M Cache Time := fun c =>
  let (t, clk) := Now (clock c) in
  (t, mkCache (items c) (defaultExpiration c) (cleanupInterval c)
              (stopCleanup c) clk (logger c)).

(** [c.logger.Debug(msg, args...)] *)
Definition loggerDebug (m : string) (a : list string) : M Cache unit :=
  modify (fun c =>
    mkCache (items c) (defaultExpiration c) (cleanupInterval c)
            (stopCleanup c) (clock c) (Slog.Debug m a (logger c))).

Definition setupLogger (LOG_LEVEL : string) : Slog.Logger :=
  if String.eqb LOG_LEVEL "" then Slog.Default
  else
    let logLevel :=
      if String.eqb LOG_LEVEL "DEBUG" then Slog.LevelDebug
      else if String.eqb LOG_LEVEL "INFO" then Slog.LevelInfo
      else if String.eqb LOG_LEVEL "WARN" then Slog.LevelWarn
      else if String.eqb LOG_LEVEL "ERROR" then Slog.LevelError
      else Slog.LevelInfo in
    {| Slog.minLevel := logLevel; Slog.written := [] |}.

(** [NewCache]; [LOG_LEVEL] is the value of that environment variable.
    With a positive cleanup interval the constructor starts the
    cleanup goroutine, which parks in its [select], ready to receive
    on [stopCleanup]. *)
Definition NewCache (LOG_LEVEL : string)
    (defaultExpiration cleanupInterval : Duration) (clock : Clock)
    : Cache :=
  {| items := ∅;
     defaultExpiration := defaultExpiration;
     cleanupInterval := cleanupInterval;
     stopCleanup :=
       {| receivers := if 0 <? cleanupInterval then 1%nat else 0%nat |};
     clock := clock;
     logger := setupLogger LOG_LEVEL |}.

Definition NewDefaultCache (LOG_LEVEL : string)
    (defaultExpiration : Duration) (realClock : Clock) : Cache :=
  NewCache LOG_LEVEL defaultExpiration (30 * Second) realClock.

Definition SetWithExpiration (key : string) (value : any V)
    (expiration : Duration) : M Cache unit :=
  let* exp :=
    (if 0 <? expiration
     then let* now := clockNow in ret (UnixNano (Add now expiration))
     else ret 0) in
  setItems (fun m => <[key := {| Value := value; Expiration := exp |}]> m).

Definition Set_ (key : string) (value : any V) : M Cache unit :=
  let* d := gets defaultExpiration in
  SetWithExpiration key value d.

Definition SetWithoutExpiration (key : string) (value : any V)
    : M Cache unit :=
  SetWithExpiration key value 0.

Definition Delete (key : string) : M Cache unit :=
  setItems (fun m => delete key m).

Definition Get (key : string) : M Cache (any V * bool) :=
  let* found := gets (fun c => items c !! key) in
  match found with
  | None => ret (nil, false)
  | Some item =>
      let* expired :=
        andThen (0 <? Expiration item)
          (let* now := clockNow in
           ret (Expiration item <? UnixNano now)) in
      if expired then
        loggerDebug "Item with key `"
          [key; "` found but expired. Not returning."] ;;
        ret (nil, false)
      else ret (Value item, true)
  end.

Definition deleteExpired : M Cache unit :=
  loggerDebug "Cleaning up expired items." [] ;;
  let* t := clockNow in
  let now := UnixNano t in
  setItems (fun m => sweep now (map_to_list m) m).

(** The loop of [startCleanupTimer], run on the wake-ups its [select]
    receives; it is still waiting when they are used up. *)
Fixpoint startCleanupTimer (wakeups : list Wakeup) : M Cache unit :=
  match wakeups with
  | [] => ret tt
  | Tick :: rest => deleteExpired ;; startCleanupTimer rest
  | StopSignal :: _ => ret tt
  end.

Definition Stop : M Cache Outcome := fun c =>
  if 0 <? cleanupInterval c then
    let (r, ch) := send (stopCleanup c) in
    (r, mkCache (items c) (defaultExpiration c) (cleanupInterval c)
                ch (clock c) (logger c))
  else (Returned, c).

(** The store when its clock, which it shares with its owner, has
    become [clk]: time passing between two calls. *)
Definition withClock (clk : Clock) (c : Cache) : Cache :=
  mkCache (items c) (defaultExpiration c) (cleanupInterval c)
          (stopCleanup c) clk (logger c).

(** [clock.Advance(d)] on the fake clock the store was built with. *)
Definition elapse (d : Duration) (c : Cache) : Cache :=
  withClock (Advance d (clock c)) c.

(** What can happen to a store between its construction and [Stop]:
    the calls of its owner, the passing of time, and the firing of the
    ticker, which reaches the cleanup goroutine if there is one. *)
Inductive Call :=
| CallSet (key : string) (value : any V)
| CallSetWithExpiration (key : string) (value : any V) (d : Duration)
| CallSetWithoutExpiration (key : string) (value : any V)
| CallDelete (key : string)
| CallGet (key : string)
| TimePasses (clk : Clock)
| TickerFires.

Definition call (o : Call) (c : Cache) : Cache :=
  match o with
  | CallSet k v => exec (Set_ k v) c
  | CallSetWithExpiration k v d => exec (SetWithExpiration k v d) c
  | CallSetWithoutExpiration k v => exec (SetWithoutExpiration k v) c
  | CallDelete k => exec (Delete k) c
  | CallGet k => exec (Get k) c
  | TimePasses clk => withClock clk c
  | TickerFires =>
      match receivers (stopCleanup c) with
      | O => c
      | S _ => exec (startCleanupTimer [Tick]) c
      end
  end.

Definition calls (os : list Call) (c : Cache) : Cache :=
  fold_left (fun c o => call o c) os c.

End Store.

Arguments Cache : clear implicits.
Arguments Call : clear implicits.

End Logged.

(** ** The earlier revision of [cache/cache.go], without a logger *)

Module Plain.

Section Store.
Context {V : Type}.

Record Cache := mkCache {
  items : gmap string (Item V);
  defaultExpiration : Duration;
  cleanupInterval : Duration;
  stopCleanup : Chan;
  clock : Clock
}.

#[local] Open Scope go_scope.

Definition setItems (f : gmap string (Item V) -> gmap string (Item V))
    : M Cache unit :=
  modify (fun c =>
    mkCache (f (items c)) (defaultExpiration c) (cleanupInterval c)
            (stopCleanup c) (clock c)).

(** [c.clock.Now()] *)
Definition clockNow : M Cache Time := fun c =>
  let (t, clk) := Now (clock c) in
  (t, mkCache (items c) (defaultExpiration c) (cleanupInterval c)
              (stopCleanup c) clk).

Definition NewCache (defaultExpiration cleanupInterval : Duration)
    (clock : Clock) : Cache :=
  {| items := ∅;
     defaultExpiration := defaultExpiration;
     cleanupInterval := cleanupInterval;
     stopCleanup :=
       {| receivers := if 0 <? cleanupInterval then 1%nat else 0%nat |};
     clock := clock |}.

Definition NewDefaultCache (defaultExpiration : Duration)
    (realClock : Clock) : Cache :=
  NewCache defaultExpiration (5 * Second) realClock.

Definition SetWithExpiration (key : string) (value : any V)
    (expiration : Duration) : M Cache unit :=
  let* exp :=
    (if 0 <? expiration
     then let* now := clockNow in ret (UnixNano (Add now expiration))
     else ret 0) in
  setItems (fun m => <[key := {| Value := value; Expiration := exp |}]> m).

Definition Set_ (key : string) (value : any V) : M Cache unit :=
  let* d := gets defaultExpiration in
  SetWithExpiration key value d.

Definition SetWithoutExpiration (key : string) (value : any V)
    : M Cache unit :=
  SetWithExpiration key value 0.

Definition Delete (key : string) : M Cache unit :=
  setItems (fun m => delete key m).

Definition Get (key : string) : M Cache (any V * bool) :=
  let* found := gets (fun c => items c !! key) in
  match found with
  | None => ret (nil, false)
  | Some item =>
      let* expired :=
        andThen (0 <? Expiration item)
          (let* now := clockNow in
           ret (Expiration item <? UnixNano now)) in
      if expired then ret (nil, false)
      else ret (Value item, true)
  end.

Definition deleteExpired : M Cache unit :=
  let* t := clockNow in
  let now := UnixNano t in
  setItems (fun m => sweep now (map_to_list m) m).

Fixpoint startCleanupTimer (wakeups : list Wakeup) : M Cache unit :=
  match wakeups with
  | [] => ret tt
  | Tick :: rest => deleteExpired ;; startCleanupTimer rest
  | StopSignal :: _ => ret tt
  end.

Definition Stop : M Cache Outcome := fun c =>
  if 0 <? cleanupInterval c then
    let (r, ch) := send (stopCleanup c) in
    (r, mkCache (items c) (defaultExpiration c) (cleanupInterval c)
                ch (clock c))
  else (Returned, c).

Definition withClock (clk : Clock) (c : Cache) : Cache :=
  mkCache (items c) (defaultExpiration c) (cleanupInterval c)
          (stopCleanup c) clk.

Definition elapse (d : Duration) (c : Cache) : Cache :=
  withClock (Advance d (clock c)) c.

End Store.

Arguments Cache : clear implicits.

End Plain.

(** Forgetting the logger of a store of [cache/cache.go] gives a store of
    the revision without logging. *)
Definition erase {V} (c : Logged.Cache V) : Plain.Cache V :=
  {| Plain.items := Logged.items c;
     Plain.defaultExpiration := Logged.defaultExpiration c;
     Plain.cleanupInterval := Logged.cleanupInterval c;
     Plain.stopCleanup := Logged.stopCleanup c;
     Plain.clock := Logged.clock c |}.

(** An entry that [Get] and the sweep treat as expired at [now]. *)
Definition expired {V} (now : Z) (it : Item V) : Prop :=
  0 < Expiration it /\ Expiration it < now.

(** The reading of the injected clock the next call will see, as the
    [int64] the store compares expirations with. *)
Definition nowOf {V} (c : Logged.Cache V) : Z :=
  UnixNano (peek (Logged.clock c)).


(** ** Stores of the test suite *)

Module Scenario.

(** The store of [TestCacheBasicOperations]: default expiration 1s,
    cleanup every 2s, a fake clock; here the clock starts at the epoch. *)
Definition atEpoch : Logged.Cache string :=
  Logged.NewCache "" Second (2 * Second) (NewFakeClockAt 0).

(** The same store on a fake clock set ten seconds before the epoch. *)
Definition beforeEpoch : Logged.Cache string :=
  Logged.NewCache "" Second (2 * Second) (NewFakeClockAt (-10 * Second)).

(** A store without background cleanup. *)
Definition unswept : Logged.Cache string :=
  Logged.NewCache "DEBUG" Second 0 (NewFakeClockAt 0).

End Scenario.

(** * Properties *)

(** ** Arithmetic of [int64] timestamps *)

Lemma wrap64_representable z : representable z -> wrap64 z = z.
Proof.
  unfold representable, min_int64, max_int64, wrap64. intros Hz.
  rewrite Z.mod_small; lia.
Qed.

Lemma wrap64_range z : representable (wrap64 z).
Proof.
  unfold representable, min_int64, max_int64, wrap64.
  pose proof (Z.mod_pos_bound (z + 2 ^ 63) (2 ^ 64)). lia.
Qed.

(** Adding a non-negative [int64] to an instant either adds it to the
    truncated instant or wraps around once. *)
Lemma wrap64_add t d :
  0 <= d <= max_int64 ->
  wrap64 (t + d) = wrap64 t + d \/ wrap64 (t + d) = wrap64 t + d - 2 ^ 64.
Proof.
  unfold max_int64, wrap64. intros Hd.
  pose proof (Z.mod_pos_bound (t + 2 ^ 63) (2 ^ 64)) as Ht.
  pose proof (Z.mod_pos_bound (t + d + 2 ^ 63) (2 ^ 64)) as Htd.
  pose proof (Z.div_mod (t + 2 ^ 63) (2 ^ 64)) as E1.
  pose proof (Z.div_mod (t + d + 2 ^ 63) (2 ^ 64)) as E2.
  lia.
Qed.

(** An entry stamped [t + d] is not yet expired [e <= d] later, whatever
    the truncation does to the two instants. *)
Lemma fresh_entry_not_expired t d e :
  0 <= e <= d -> d <= max_int64 ->
  (0 <? UnixNano (Add t d)) && (UnixNano (Add t d) <? UnixNano (Add t e))
  = false.
Proof.
  intros He Hd. unfold UnixNano, Add.
  replace (t + d) with ((t + e) + (d - e)) by lia.
  pose proof (wrap64_range (t + e)) as Hr.
  unfold representable, min_int64, max_int64 in *.
  destruct (wrap64_add (t + e) (d - e)) as [-> | ->];
    [unfold max_int64; lia | | ]; lia.
Qed.

(** ** The sweep loop *)

Section Sweep.
Context {V : Type}.
Implicit Types (m : gmap string (Item V)) (l : list (string * Item V)).
Implicit Types (k : string) (it : Item V).

Lemma sweep_lookup_Some now l m k it :
  sweep now l m !! k = Some it -> m !! k = Some it.
Proof.
  revert m. induction l as [|[k' v] l IH]; intros m; simpl; [done|].
  intros H. apply IH in H.
  destruct ((0 <? Expiration v) && (Expiration v <? now)); [|done].
  by apply lookup_delete_Some in H as [_ ?].
Qed.

Lemma sweep_lookup_kept now l m k :
  (forall v, (k, v) ∈ l ->
     (0 <? Expiration v) && (Expiration v <? now) = false) ->
  sweep now l m !! k = m !! k.
Proof.
  revert m. induction l as [|[k' v] l IH]; intros m Hl; simpl; [done|].
  rewrite IH by (intros v' Hv'; apply Hl; by right).
  destruct ((0 <? Expiration v) && (Expiration v <? now)) eqn:E; [|done].
  destruct (decide (k' = k)) as [->|Hne].
  - rewrite (Hl v) in E by left. done.
  - by rewrite lookup_delete_ne.
Qed.

Lemma sweep_lookup_dropped now l m k v :
  (k, v) ∈ l ->
  (0 <? Expiration v) && (Expiration v <? now) = true ->
  sweep now l m !! k = None.
Proof.
  revert m. induction l as [|[k' v'] l IH]; intros m Hin Hexp; simpl.
  - by apply elem_of_nil in Hin.
  - apply elem_of_cons in Hin as [[= <- <-]|Hin]; [|by apply IH].
    rewrite Hexp.
    destruct (sweep now l (delete k m) !! k) as [it|] eqn:E; [|done].
    apply sweep_lookup_Some in E. by rewrite lookup_delete_eq in E.
Qed.

(** Whatever order the iteration takes, the loop leaves exactly the
    entries that are not expired. *)
Lemma sweep_range_lookup now l m k :
  l ≡ₚ map_to_list m ->
  sweep now l m !! k =
    match m !! k with
    | Some it =>
        if (0 <? Expiration it) && (Expiration it <? now)
        then None else Some it
    | None => None
    end.
Proof.
  intros Hl. destruct (m !! k) as [it|] eqn:Hk.
  - assert ((k, it) ∈ l) as Hin
      by (rewrite Hl; by apply elem_of_map_to_list).
    destruct ((0 <? Expiration it) && (Expiration it <? now)) eqn:E.
    + by eapply sweep_lookup_dropped.
    + rewrite sweep_lookup_kept, Hk; [done|].
      intros v Hv. rewrite Hl in Hv.
      apply elem_of_map_to_list in Hv. congruence.
  - destruct (sweep now l m !! k) as [it|] eqn:E; [|done].
    apply sweep_lookup_Some in E. congruence.
Qed.

Lemma sweep_order_irrelevant now l m :
  l ≡ₚ map_to_list m -> sweep now l m = sweep now (map_to_list m) m.
Proof.
  intros Hl. apply map_eq. intros k.
  by rewrite !sweep_range_lookup.
Qed.

End Sweep.

(** ** What each call of [cache/cache.go] does to the store *)

Section LoggedCalls.
Context {V : Type}.
Implicit Types (c : Logged.Cache V) (k : string) (v : any V).
Implicit Types (it : Item V).

Lemma Get_eval c k :
  eval (Logged.Get k) c =
    match Logged.items c !! k with
    | None => (nil, false)
    | Some it =>
        if (0 <? Expiration it) && (Expiration it <? nowOf c)
        then (nil, false) else (Value it, true)
    end.
Proof.
  unfold eval, Logged.Get, bind, gets, nowOf. simpl.
  destruct (Logged.items c !! k) as [it|]; [|done].
  unfold andThen. destruct (0 <? Expiration it); simpl; [|done].
  unfold Logged.clockNow, Now, ret. simpl.
  by destruct (Expiration it <? UnixNano (peek (Logged.clock c))).
Qed.

Lemma Get_items c k :
  Logged.items (exec (Logged.Get k) c) = Logged.items c.
Proof.
  unfold exec, Logged.Get, bind, gets. simpl.
  destruct (Logged.items c !! k) as [it|]; [|done].
  unfold andThen. destruct (0 <? Expiration it); simpl; [|done].
  unfold Logged.clockNow, Now, ret. simpl.
  by destruct (Expiration it <? UnixNano (peek (Logged.clock c))).
Qed.

Lemma SetWithExpiration_items c k v ttl :
  Logged.items (exec (Logged.SetWithExpiration k v ttl) c) =
    <[k := {| Value := v;
              Expiration :=
                if 0 <? ttl
                then UnixNano (Add (peek (Logged.clock c)) ttl)
                else 0 |}]> (Logged.items c).
Proof.
  unfold exec, Logged.SetWithExpiration, bind. simpl.
  by destruct (0 <? ttl).
Qed.

Lemma Delete_items c k :
  Logged.items (exec (Logged.Delete k) c) = delete k (Logged.items c).
Proof. done. Qed.

Lemma deleteExpired_items c :
  Logged.items (exec Logged.deleteExpired c) =
    sweep (nowOf c) (map_to_list (Logged.items c)) (Logged.items c).
Proof. done. Qed.

Lemma deleteExpired_clock c :
  Logged.clock (exec Logged.deleteExpired c) = snd (Now (Logged.clock c)).
Proof. done. Qed.

End LoggedCalls.

(** ** Expiration as [Get] sees it *)

Section Expiry.
Context {V : Type}.
Implicit Types (c : Logged.Cache V) (k : string) (v : any V).
Implicit Types (it : Item V).

(** C1, as amended.  After [SetWithExpiration k v ttl] with [ttl > 0],
    when the expiration instant is a positive [int64] count of
    nanoseconds and the later clock reading is representable, [Get k]
    returns [(v, true)] as long as the time elapsed on the injected
    clock is at most [ttl], the boundary included, and [(nil, false)]
    once it exceeds [ttl]. *)
Theorem SetWithExpiration_Get_elapsed c k v ttl c' :
  0 < ttl ->
  0 < Add (peek (Logged.clock c)) ttl <= max_int64 ->
  representable (peek (Logged.clock c')) ->
  Logged.items c' !! k =
    Logged.items (exec (Logged.SetWithExpiration k v ttl) c) !! k ->
  let elapsed := peek (Logged.clock c') - peek (Logged.clock c) in
  (elapsed <= ttl -> eval (Logged.Get k) c' = (v, true)) /\
  (ttl < elapsed -> eval (Logged.Get k) c' = (nil, false)).
Proof.
  intros Httl Hexp Hnow Hk elapsed. subst elapsed.
  rewrite SetWithExpiration_items, lookup_insert_eq in Hk.
  rewrite Get_eval, Hk. simpl.
  assert ((0 <? ttl) = true) as -> by lia.
  unfold nowOf, UnixNano, Add in *.
  rewrite (wrap64_representable (_ + ttl))
    by (unfold representable, min_int64, max_int64 in *; lia).
  rewrite (wrap64_representable (peek (Logged.clock c'))) by done.
  split; intros He.
  - assert ((peek (Logged.clock c) + ttl <? peek (Logged.clock c')) = false)
      as -> by lia.
    by rewrite andb_false_r.
  - assert ((0 <? peek (Logged.clock c) + ttl) = true) as -> by lia.
    assert ((peek (Logged.clock c) + ttl <? peek (Logged.clock c')) = true)
      as -> by lia.
    done.
Qed.

(** C2, as amended.  [Get k] returns [(nil, false)] exactly when [k] is
    not in the map or the stored entry's expiration is strictly positive
    and strictly less than the current reading of the clock; otherwise
    it returns the stored value with [true]. *)
Theorem Get_absent_iff c k :
  (eval (Logged.Get k) c = (nil, false) <->
     Logged.items c !! k = None \/
     exists it, Logged.items c !! k = Some it /\
                0 < Expiration it /\ Expiration it < nowOf c) /\
  (forall it, Logged.items c !! k = Some it ->
     ~ (0 < Expiration it /\ Expiration it < nowOf c) ->
     eval (Logged.Get k) c = (Value it, true)).
Proof.
  rewrite Get_eval. destruct (Logged.items c !! k) as [it|] eqn:Hk.
  - destruct ((0 <? Expiration it) && (Expiration it <? nowOf c)) eqn:E.
    + apply andb_true_iff in E as [E1 E2].
      split.
      * split; [|done]. intros _. right. exists it. split; [done|lia].
      * intros it' [= <-] Hn. lia.
    + apply andb_false_iff in E.
      split.
      * split; [done|]. intros [?|(it' & [= <-] & ? & ?)]; [done|lia].
      * by intros it' [= <-] _.
  - split; [|done]. split; [by left|done].
Qed.

(** C3.  [SetWithExpiration] with [ttl <= 0] stores the sentinel
    expiration 0, [SetWithoutExpiration k v] is [SetWithExpiration k v 0],
    and after either call [Get k] returns [(v, true)] however far the
    clock has moved while the entry stays in the map. *)
Theorem no_expiration_never_expires c k v ttl :
  ttl <= 0 ->
  let c1 := exec (Logged.SetWithExpiration k v ttl) c in
  let c2 := exec (Logged.SetWithoutExpiration k v) c in
  Logged.items c1 !! k = Some {| Value := v; Expiration := 0 |} /\
  Logged.SetWithoutExpiration k v = Logged.SetWithExpiration k v 0 /\
  (forall c', Logged.items c' !! k = Logged.items c1 !! k ->
     eval (Logged.Get k) c' = (v, true)) /\
  (forall c', Logged.items c' !! k = Logged.items c2 !! k ->
     eval (Logged.Get k) c' = (v, true)) /\
  (forall d, eval (Logged.Get k) (Logged.elapse d c1) = (v, true)) /\
  (forall d, eval (Logged.Get k) (Logged.elapse d c2) = (v, true)).
Proof.
  intros Httl c1 c2. subst c1 c2. unfold Logged.SetWithoutExpiration.
  assert (forall c' d, d <= 0 ->
            Logged.items c' !! k =
              Logged.items (exec (Logged.SetWithExpiration k v d) c) !! k ->
            eval (Logged.Get k) c' = (v, true)) as Hget.
  { intros c' d Hd Hk.
    rewrite SetWithExpiration_items, lookup_insert_eq in Hk.
    rewrite Get_eval, Hk. simpl.
    by assert ((0 <? d) = false) as -> by lia. }
  split; [|split; [done|]].
  - rewrite SetWithExpiration_items, lookup_insert_eq.
    by assert ((0 <? ttl) = false) as -> by lia.
  - repeat split; intros.
    + by apply (Hget c' ttl).
    + by apply (Hget c' 0).
    + by apply (Hget _ ttl).
    + by apply (Hget _ 0).
Qed.

End Expiry.

(** ** Overwriting, reading and deleting *)

Section Entries.
Context {V : Type}.
Implicit Types (c : Logged.Cache V) (k : string) (v : any V).
Implicit Types (it old : Item V).

(** C4.  On a key that is already present, [SetWithExpiration], [Set]
    and [SetWithoutExpiration] store an entry that owes nothing to the
    old one: the new value, stamped from the current reading of the
    clock.  So with a default TTL of 1s, after [Set k v1], 900ms, then
    [Set k v2] and another 900ms, [Get k] still returns [(v2, true)],
    whereas the first entry alone would have expired by then. *)
Theorem overwrite_resets_expiration c k old v ttl :
  Logged.items c !! k = Some old ->
  let stamp d :=
    if 0 <? d then UnixNano (Add (peek (Logged.clock c)) d) else 0 in
  Logged.items (exec (Logged.SetWithExpiration k v ttl) c) !! k
    = Some {| Value := v; Expiration := stamp ttl |} /\
  Logged.items (exec (Logged.Set_ k v) c) !! k
    = Some {| Value := v;
              Expiration := stamp (Logged.defaultExpiration c) |} /\
  Logged.items (exec (Logged.SetWithoutExpiration k v) c) !! k
    = Some {| Value := v; Expiration := 0 |} /\
  (forall LOG_LEVEL interval t0 v1 v2,
     let c0 := Logged.NewCache LOG_LEVEL Second interval
                 (NewFakeClockAt t0) in
     let c1 := exec (Logged.Set_ k v1) c0 in
     let c2 := exec (Logged.Set_ k v2)
                 (Logged.elapse (900 * Millisecond) c1) in
     eval (Logged.Get k) (Logged.elapse (900 * Millisecond) c2)
       = (v2, true) /\
     (0 <= t0 -> t0 + 2 * Second <= max_int64 ->
      eval (Logged.Get k)
        (Logged.elapse (900 * Millisecond)
           (Logged.elapse (900 * Millisecond) c1)) = (nil, false))).
Proof.
  intros _ stamp. subst stamp. cbv beta.
  split; [|split; [|split]].
  - by rewrite SetWithExpiration_items, lookup_insert_eq.
  - unfold Logged.Set_, exec, bind, gets.
    change (snd (Logged.SetWithExpiration k v (Logged.defaultExpiration c) c))
      with (exec (Logged.SetWithExpiration k v (Logged.defaultExpiration c)) c).
    by rewrite SetWithExpiration_items, lookup_insert_eq.
  - unfold Logged.SetWithoutExpiration.
    by rewrite SetWithExpiration_items, lookup_insert_eq.
  - intros LOG_LEVEL interval t0 v1 v2 c0 c1 c2. split.
    + rewrite Get_eval.
      replace (Logged.items (Logged.elapse (900 * Millisecond) c2) !! k)
        with (Some {| Value := v2;
                      Expiration :=
                        UnixNano (Add (t0 + 900 * Millisecond) Second) |})
        by (symmetry; apply lookup_insert_eq).
      replace (nowOf (Logged.elapse (900 * Millisecond) c2))
        with (UnixNano (Add (t0 + 900 * Millisecond) (900 * Millisecond)))
        by reflexivity.
      cbv [Value Expiration].
      rewrite fresh_entry_not_expired; [done|..]; by vm_compute.
    + intros Ht0 Hmax. rewrite Get_eval.
      replace (Logged.items
                 (Logged.elapse (900 * Millisecond)
                    (Logged.elapse (900 * Millisecond) c1)) !! k)
        with (Some {| Value := v1;
                      Expiration := UnixNano (Add t0 Second) |})
        by (symmetry; apply lookup_insert_eq).
      replace (nowOf (Logged.elapse (900 * Millisecond)
                        (Logged.elapse (900 * Millisecond) c1)))
        with (UnixNano (t0 + 900 * Millisecond + 900 * Millisecond))
        by reflexivity.
      cbv [Value Expiration]. unfold UnixNano, Add.
      assert (Second = 1000000000) as HS by reflexivity.
      assert (Millisecond = 1000000) as HM by reflexivity.
      rewrite HS, HM in *. clear HS HM.
      unfold max_int64 in Hmax.
      rewrite !wrap64_representable
        by (unfold representable, min_int64, max_int64; lia).
      assert ((0 <? t0 + 1000000000) = true) as -> by lia.
      by assert ((t0 + 1000000000 <? t0 + 900 * 1000000 + 900 * 1000000)
                 = true) as -> by lia.
Qed.

(** C5, as amended.  [Get] leaves the map as it was.  In particular an
    entry whose expiration is strictly positive and in the past makes
    [Get] return [(nil, false)] and is still in the map afterwards; it
    is the sweep that removes it. *)
Theorem Get_leaves_map c k :
  Logged.items (exec (Logged.Get k) c) = Logged.items c /\
  (forall it, Logged.items c !! k = Some it ->
     0 < Expiration it -> Expiration it < nowOf c ->
     eval (Logged.Get k) c = (nil, false) /\
     Logged.items (exec (Logged.Get k) c) !! k = Some it /\
     Logged.items (exec Logged.deleteExpired c) !! k = None).
Proof.
  split; [apply Get_items|].
  intros it Hk H0 Hnow.
  assert ((0 <? Expiration it) && (Expiration it <? nowOf c) = true) as E
    by (apply andb_true_iff; lia).
  split; [|split].
  - by rewrite Get_eval, Hk, E.
  - by rewrite Get_items.
  - by rewrite deleteExpired_items, sweep_range_lookup, Hk, E.
Qed.

(** C7.  After [Delete k], [Get k] returns [(nil, false)], at once and
    for as long as [k] is not set again; a second [Delete k] changes
    nothing, and neither does [Delete k] on a store without [k]. *)
Theorem Delete_removes c k :
  let c1 := exec (Logged.Delete k) c in
  eval (Logged.Get k) c1 = (nil, false) /\
  (forall c', Logged.items c' !! k = Logged.items c1 !! k ->
     eval (Logged.Get k) c' = (nil, false)) /\
  exec (Logged.Delete k) c1 = c1 /\
  (Logged.items c !! k = None -> c1 = c).
Proof.
  intros c1. subst c1.
  assert (Logged.items (exec (Logged.Delete k) c) !! k = None) as Hk
    by (rewrite Delete_items; apply lookup_delete_eq).
  split; [|split; [|split]].
  - by rewrite Get_eval, Hk.
  - intros c' Hc'. by rewrite Get_eval, Hc', Hk.
  - destruct c as [m d i ch clk lg].
    unfold exec, Logged.Delete, Logged.setItems, modify. simpl.
    f_equal. apply map_eq. intros j.
    destruct (decide (k = j)) as [->|Hne].
    + by rewrite !lookup_delete_eq.
    + by rewrite !lookup_delete_ne.
  - intros Hnone. destruct c as [m d i ch clk lg].
    unfold exec, Logged.Delete, Logged.setItems, modify. simpl in *.
    f_equal. apply map_eq. intros j.
    destruct (decide (k = j)) as [->|Hne].
    + by rewrite lookup_delete_eq.
    + by rewrite lookup_delete_ne.
Qed.

End Entries.

(** ** The sweep *)

Section SweepCalls.
Context {V : Type}.
Implicit Types (c : Logged.Cache V) (p : Plain.Cache V) (k : string).
Implicit Types (it : Item V).

(** C6, as amended.  [deleteExpired] asks the clock for the time exactly
    once, and compares every entry with that one reading: afterwards no
    entry whose expiration is strictly positive and less than the
    reading is left, every such entry having been deleted. *)
Theorem deleteExpired_one_reading c :
  let c' := exec Logged.deleteExpired c in
  let now := UnixNano (reading (Logged.clock c) (cursor (Logged.clock c))) in
  reading (Logged.clock c') = reading (Logged.clock c) /\
  cursor (Logged.clock c') = S (cursor (Logged.clock c)) /\
  (forall k it, Logged.items c' !! k = Some it ->
     ~ (0 < Expiration it /\ Expiration it < now)) /\
  (forall k it, Logged.items c !! k = Some it ->
     0 < Expiration it -> Expiration it < now ->
     Logged.items c' !! k = None).
Proof.
  intros c' now. subst c'.
  split; [done|]. split; [done|].
  change now with (nowOf c). clear now.
  split; intros k it; rewrite deleteExpired_items, sweep_range_lookup by done.
  - destruct (Logged.items c !! k) as [it'|]; [|done].
    destruct ((0 <? Expiration it') && (Expiration it' <? nowOf c)) eqn:E;
      [done|].
    intros [= <-]. apply andb_false_iff in E. lia.
  - intros -> H0 Hnow.
    by assert ((0 <? Expiration it) && (Expiration it <? nowOf c) = true)
      as -> by (apply andb_true_iff; lia).
Qed.

(** C10.  The sweep removes expired entries only: an entry whose
    expiration is 0, or not less than the captured reading, is still in
    the map afterwards under the same key, with the same value and
    expiration.  This holds for [deleteExpired] of [cache/cache.go] and
    for that of the revision without logging. *)
Theorem deleteExpired_keeps_live k it :
  (forall now m l, m !! k = Some it ->
     Expiration it = 0 \/ now <= Expiration it ->
     l ≡ₚ map_to_list m -> sweep now l m !! k = Some it) /\
  (forall c, Logged.items c !! k = Some it ->
     Expiration it = 0 \/ UnixNano (peek (Logged.clock c)) <= Expiration it ->
     Logged.items (exec Logged.deleteExpired c) !! k = Some it) /\
  (forall p, Plain.items p !! k = Some it ->
     Expiration it = 0 \/ UnixNano (peek (Plain.clock p)) <= Expiration it ->
     Plain.items (exec Plain.deleteExpired p) !! k = Some it).
Proof.
  assert (forall now m l, m !! k = Some it ->
            Expiration it = 0 \/ now <= Expiration it ->
            l ≡ₚ map_to_list m -> sweep now l m !! k = Some it) as Hsweep.
  { intros now m l Hk Hlive Hl. rewrite sweep_range_lookup, Hk by done.
    by assert ((0 <? Expiration it) && (Expiration it <? now) = false)
      as -> by (apply andb_false_iff; lia). }
  split; [done|split].
  - intros c Hk Hlive. rewrite deleteExpired_items. by apply Hsweep.
  - intros p Hk Hlive. by apply Hsweep.
Qed.

End SweepCalls.

(** ** Stopping a store that has no cleanup goroutine *)

Section Lifecycle.
Context {V : Type}.
Implicit Types (c : Logged.Cache V) (o : Logged.Call V).

Lemma SetWithExpiration_config c k (v : any V) d :
  Logged.cleanupInterval (exec (Logged.SetWithExpiration k v d) c)
    = Logged.cleanupInterval c /\
  Logged.stopCleanup (exec (Logged.SetWithExpiration k v d) c)
    = Logged.stopCleanup c.
Proof.
  unfold exec, Logged.SetWithExpiration, bind. simpl.
  by destruct (0 <? d).
Qed.

Lemma Get_config c k :
  Logged.cleanupInterval (exec (Logged.Get k) c)
    = Logged.cleanupInterval c /\
  Logged.stopCleanup (exec (Logged.Get k) c) = Logged.stopCleanup c.
Proof.
  unfold exec, Logged.Get, bind, gets. simpl.
  destruct (Logged.items c !! k) as [it|]; [|done].
  unfold andThen. destruct (0 <? Expiration it); simpl; [|done].
  unfold Logged.clockNow, Now, ret. simpl.
  by destruct (Expiration it <? UnixNano (peek (Logged.clock c))).
Qed.

Lemma call_config o c :
  Logged.cleanupInterval (Logged.call o c) = Logged.cleanupInterval c /\
  Logged.stopCleanup (Logged.call o c) = Logged.stopCleanup c.
Proof.
  destruct o; simpl;
    try apply SetWithExpiration_config; try apply Get_config; try done.
  by destruct (receivers (Logged.stopCleanup c)).
Qed.

Lemma calls_config (os : list (Logged.Call V)) c :
  Logged.cleanupInterval (Logged.calls os c) = Logged.cleanupInterval c /\
  Logged.stopCleanup (Logged.calls os c) = Logged.stopCleanup c.
Proof.
  revert c. induction os as [|o os IH]; intros c; [done|].
  unfold Logged.calls in *. simpl.
  destruct (IH (Logged.call o c)) as [-> ->]. apply call_config.
Qed.

(** C8.  On a store built with cleanup interval 0, whatever has been
    done with it since, [Stop] returns without taking the branch that
    sends on [stopCleanup] and leaves the store as it was; nothing
    receives on that channel, so the send would have blocked. *)
Theorem Stop_without_cleanup LOG_LEVEL d clk (os : list (Logged.Call V)) :
  let c := Logged.calls os (Logged.NewCache LOG_LEVEL d 0 clk) in
  Logged.Stop c = (Returned, c) /\
  fst (send (Logged.stopCleanup c)) = BlockedOnSend.
Proof.
  intros c. subst c.
  destruct (calls_config os (Logged.NewCache LOG_LEVEL d 0 clk))
    as [Hi Hch].
  unfold Logged.Stop. rewrite Hi, Hch. done.
Qed.

End Lifecycle.

(** ** Logging *)

Section Logging.
Context {V : Type}.
Implicit Types (c : Logged.Cache V) (k : string) (v : any V).

(** C9.  Each of [Get], [SetWithExpiration], [Delete] and
    [deleteExpired] of [cache/cache.go] returns what its counterpart
    without logging returns and leaves the same store, logger apart:
    the same map, clock and configuration. *)
Theorem logging_is_observational c k v ttl :
  Plain.Get k (erase c)
    = (eval (Logged.Get k) c, erase (exec (Logged.Get k) c)) /\
  Plain.SetWithExpiration k v ttl (erase c)
    = (eval (Logged.SetWithExpiration k v ttl) c,
       erase (exec (Logged.SetWithExpiration k v ttl) c)) /\
  Plain.Delete k (erase c)
    = (eval (Logged.Delete k) c, erase (exec (Logged.Delete k) c)) /\
  Plain.deleteExpired (erase c)
    = (eval Logged.deleteExpired c, erase (exec Logged.deleteExpired c)).
Proof.
  repeat split.
  - unfold eval, exec, Plain.Get, Logged.Get, bind, gets. simpl.
    destruct (Logged.items c !! k) as [it|]; [|done].
    unfold andThen. destruct (0 <? Expiration it); simpl; [|done].
    unfold Plain.clockNow, Logged.clockNow, Now, ret. simpl.
    by destruct (Expiration it <? UnixNano (peek (Logged.clock c))).
  - unfold eval, exec, Plain.SetWithExpiration, Logged.SetWithExpiration,
      bind. simpl.
    by destruct (0 <? ttl).
Qed.

End Logging.

(** ** The properties on the stores of the test suite *)

Section Scenarios.
Import Scenario.

#[local] Ltac compute_it :=
  vm_compute; repeat split; (reflexivity || discriminate).

(** Against C1 as stated: [SetWithExpiration "foo" v 2s], then exactly
    2s on the clock: the elapsed time is [>= ttl], and [Get] still
    returns the value. *)
Lemma Get_at_the_boundary_found :
  let ttl := 2 * Second in
  let c1 := exec (Logged.SetWithExpiration "foo" (Some "foo value") ttl)
              atEpoch in
  let c2 := Logged.elapse ttl c1 in
  0 < ttl /\
  ttl <= peek (Logged.clock c2) - peek (Logged.clock atEpoch) /\
  eval (Logged.Get "foo") c2 = (Some "foo value", true).
Proof. compute_it. Qed.

Lemma SetWithExpiration_Get_elapsed_witness :
  let c1 := exec (Logged.SetWithExpiration "foo" (Some "foo value")
                    (2 * Second)) atEpoch in
  eval (Logged.Get "foo") (Logged.elapse (1900 * Millisecond) c1)
    = (Some "foo value", true) /\
  eval (Logged.Get "foo") (Logged.elapse (2100 * Millisecond) c1)
    = (nil, false).
Proof.
  intros c1. split.
  - apply (SetWithExpiration_Get_elapsed atEpoch "foo" (Some "foo value")
             (2 * Second) (Logged.elapse (1900 * Millisecond) c1));
      compute_it.
  - apply (SetWithExpiration_Get_elapsed atEpoch "foo" (Some "foo value")
             (2 * Second) (Logged.elapse (2100 * Millisecond) c1));
      compute_it.
Defined.

(** Against C2 as stated: an entry set for 5s on a clock 10s before the
    epoch has a negative, hence non-zero, expiration; 10s later that
    expiration is strictly less than the current time, and [Get] returns
    the value all the same. *)
Lemma Get_negative_expiration_found :
  let c := Logged.elapse (10 * Second)
             (exec (Logged.SetWithExpiration "foo" (Some "foo value")
                      (5 * Second)) beforeEpoch) in
  ~ (eval (Logged.Get "foo") c = (nil, false) <->
       Logged.items c !! "foo" = None \/
       exists it, Logged.items c !! "foo" = Some it /\
                  Expiration it <> 0 /\ Expiration it < nowOf c).
Proof.
  intros c [_ H].
  assert (eval (Logged.Get "foo") c = (nil, false)) as Hget.
  { apply H. right.
    exists {| Value := Some "foo value"; Expiration := -5 * Second |}.
    compute_it. }
  vm_compute in Hget. discriminate.
Qed.

Lemma Get_absent_iff_witness :
  let c := Logged.elapse (1100 * Millisecond)
             (exec (Logged.Set_ "foo" (Some "foo value")) atEpoch) in
  eval (Logged.Get "foo") c = (nil, false) /\
  eval (Logged.Get "foo") (exec (Logged.Set_ "foo" (Some "foo value")) c)
    = (Some "foo value", true).
Proof.
  intros c. split.
  - apply (proj1 (Get_absent_iff c "foo")). right.
    exists {| Value := Some "foo value"; Expiration := Second |}.
    compute_it.
  - apply (proj2 (Get_absent_iff
                    (exec (Logged.Set_ "foo" (Some "foo value")) c) "foo")
             {| Value := Some "foo value";
                Expiration := 2100 * Millisecond |});
      [reflexivity|].
    intros [_ H]. vm_compute in H. discriminate.
Defined.

Lemma no_expiration_never_expires_witness :
  let c1 := exec (Logged.SetWithExpiration "foo" (Some "foo value") (-1))
              atEpoch in
  let c2 := exec (Logged.SetWithoutExpiration "foo" (Some "foo value"))
              atEpoch in
  -1 <= 0 /\
  Logged.items c1 !! "foo"
    = Some {| Value := Some "foo value"; Expiration := 0 |} /\
  eval (Logged.Get "foo") (Logged.elapse (10 * Second) c1)
    = (Some "foo value", true) /\
  eval (Logged.Get "foo") (Logged.elapse (10 * Second) c2)
    = (Some "foo value", true).
Proof.
  intros c1 c2.
  assert (-1 <= 0) as Hle by (vm_compute; discriminate).
  pose proof (no_expiration_never_expires atEpoch "foo"
                (Some "foo value") (-1) Hle) as (H1 & _ & _ & _ & H5 & H6).
  split; [exact Hle|]. split; [exact H1|].
  split; [apply H5 | apply H6].
Defined.

Lemma overwrite_resets_expiration_witness :
  let c := exec (Logged.Set_ "foo" (Some "foo value")) atEpoch in
  let c' := exec (Logged.Set_ "foo" (Some "foo value 2"))
              (Logged.elapse (900 * Millisecond) c) in
  Logged.items (Logged.elapse (900 * Millisecond) c) !! "foo"
    = Some {| Value := Some "foo value"; Expiration := Second |} /\
  Logged.items c' !! "foo"
    = Some {| Value := Some "foo value 2";
              Expiration := 1900 * Millisecond |} /\
  eval (Logged.Get "foo") (Logged.elapse (900 * Millisecond) c')
    = (Some "foo value 2", true).
Proof.
  intros c c'.
  assert (Logged.items (Logged.elapse (900 * Millisecond) c) !! "foo"
          = Some {| Value := Some "foo value"; Expiration := Second |})
    as Hold by reflexivity.
  split; [exact Hold|].
  pose proof (overwrite_resets_expiration
                (Logged.elapse (900 * Millisecond) c) "foo" _
                (Some "foo value 2") Second Hold) as (_ & H2 & _ & H4).
  split; [exact H2|].
  apply (H4 "" (2 * Second) 0 (Some "foo value") (Some "foo value 2")).
Defined.

(** Against C5 as stated: an entry with a non-zero expiration in the
    past, here a negative one, is not treated as absent by [Get]. *)
Lemma Get_past_negative_expiration_found :
  let c := Logged.elapse (20 * Second)
             (exec (Logged.Set_ "session" (Some "token")) beforeEpoch) in
  exists it,
    Logged.items c !! "session" = Some it /\
    Expiration it <> 0 /\ Expiration it < nowOf c /\
    eval (Logged.Get "session") c = (Some "token", true).
Proof.
  exists {| Value := Some "token"; Expiration := -9 * Second |}.
  compute_it.
Qed.

Lemma Get_leaves_map_witness :
  let c := Logged.elapse (1100 * Millisecond)
             (exec (Logged.Set_ "foo" (Some "foo value")) atEpoch) in
  Logged.items (exec (Logged.Get "foo") c) = Logged.items c /\
  eval (Logged.Get "foo") c = (nil, false) /\
  Logged.items (exec (Logged.Get "foo") c) !! "foo"
    = Some {| Value := Some "foo value"; Expiration := Second |} /\
  Logged.items (exec Logged.deleteExpired c) !! "foo" = None.
Proof.
  intros c. destruct (Get_leaves_map c "foo") as [Hframe Hlazy].
  split; [exact Hframe|].
  apply (Hlazy {| Value := Some "foo value"; Expiration := Second |});
    compute_it.
Defined.

(** Against C6 as stated: after a sweep an entry whose expiration is
    non-zero and less than the captured reading is still in the map,
    its expiration being negative. *)
Lemma deleteExpired_keeps_negative_expiration :
  let c := Logged.elapse (20 * Second)
             (exec (Logged.Set_ "item2" (Some "value2"))
                (exec (Logged.Set_ "item1" (Some "value1")) beforeEpoch)) in
  let now := UnixNano (peek (Logged.clock c)) in
  exists k it,
    Logged.items (exec Logged.deleteExpired c) !! k = Some it /\
    Expiration it <> 0 /\ Expiration it < now.
Proof.
  exists "item1", {| Value := Some "value1"; Expiration := -9 * Second |}.
  compute_it.
Qed.

Lemma deleteExpired_one_reading_witness :
  let c := Logged.elapse (1100 * Millisecond)
             (exec (Logged.Set_ "item2" (Some "value2"))
                (exec (Logged.Set_ "item1" (Some "value1")) atEpoch)) in
  cursor (Logged.clock (exec Logged.deleteExpired c))
    = S (cursor (Logged.clock c)) /\
  Logged.items (exec Logged.deleteExpired c) !! "item1" = None /\
  Logged.items (exec Logged.deleteExpired c) !! "item2" = None.
Proof.
  intros c.
  destruct (deleteExpired_one_reading c) as (_ & Hcur & _ & Hgone).
  split; [exact Hcur|]. split.
  - apply (Hgone "item1" {| Value := Some "value1"; Expiration := Second |});
      compute_it.
  - apply (Hgone "item2" {| Value := Some "value2"; Expiration := Second |});
      compute_it.
Defined.

Lemma Delete_removes_witness :
  let c := exec (Logged.Set_ "foo" (Some "foo value")) atEpoch in
  eval (Logged.Get "foo") (exec (Logged.Delete "foo") c) = (nil, false) /\
  eval (Logged.Get "foo")
    (Logged.elapse Second (exec (Logged.Delete "foo") c)) = (nil, false) /\
  exec (Logged.Delete "bar") c = c.
Proof.
  intros c.
  destruct (Delete_removes c "foo") as (Hget & Hlater & _ & _).
  destruct (Delete_removes c "bar") as (_ & _ & _ & Habsent).
  split; [exact Hget|]. split.
  - apply Hlater. reflexivity.
  - apply Habsent. reflexivity.
Defined.

Lemma deleteExpired_keeps_live_witness :
  let c := Logged.elapse (1100 * Millisecond)
             (exec (Logged.SetWithoutExpiration "kept" (Some "forever"))
                (exec (Logged.Set_ "item1" (Some "value1")) atEpoch)) in
  Logged.items (exec Logged.deleteExpired c) !! "kept"
    = Some {| Value := Some "forever"; Expiration := 0 |} /\
  Plain.items (exec Plain.deleteExpired (erase c)) !! "kept"
    = Some {| Value := Some "forever"; Expiration := 0 |}.
Proof.
  intros c.
  destruct (deleteExpired_keeps_live "kept"
              {| Value := Some "forever"; Expiration := 0 |})
    as (_ & Hlogged & Hplain).
  split.
  - apply Hlogged; [reflexivity|left; reflexivity].
  - apply Hplain; [reflexivity|left; reflexivity].
Defined.

(** The scenario of [TestCacheCleanup]: two keys with a TTL of 1s; after
    1.1s both are absent for [Get] and both are still in the map; the
    ticker firing at 2.1s empties the map. *)
Example cleanup_scenario :
  let c := Logged.calls
             [Logged.CallSet "item1" (Some "value1");
              Logged.CallSet "item2" (Some "value2")] atEpoch in
  let c1 := Logged.elapse (1100 * Millisecond) c in
  let c2 := Logged.call Logged.TickerFires
              (Logged.elapse (1000 * Millisecond) c1) in
  eval (Logged.Get "item1") c1 = (nil, false) /\
  eval (Logged.Get "item2") c1 = (nil, false) /\
  size (Logged.items c1) = 2%nat /\
  size (Logged.items c2) = 0%nat /\
  fst (Logged.Stop c2) = Returned.
Proof. compute_it. Qed.

(** [Stop] on a store built without cleanup, after some use. *)
Example Stop_on_unswept_store :
  let c := Logged.calls
             [Logged.CallSet "foo" (Some "foo value");
              Logged.TickerFires;
              Logged.CallGet "foo"] unswept in
  Logged.Stop c = (Returned, c).
Proof. reflexivity. Qed.

End Scenarios.

(** * Further properties of [cache/cache.go] *)

(** ** Helper facts *)

Section MoreCalls.
Context {V : Type}.
Implicit Types (c : Logged.Cache V) (k : string) (v : any V).
Implicit Types (it : Item V).

Lemma Set_exec c k v :
  exec (Logged.Set_ k v) c
  = exec (Logged.SetWithExpiration k v (Logged.defaultExpiration c)) c.
Proof. reflexivity. Qed.



(** [Get] answers from the entry under the key and the reading of the
    clock alone. *)
Lemma Get_eval_ext c c' k :
  Logged.items c !! k = Logged.items c' !! k ->
  nowOf c = nowOf c' ->
  eval (Logged.Get k) c = eval (Logged.Get k) c'.
Proof. intros Hk Hnow. by rewrite !Get_eval, Hk, Hnow. Qed.


End MoreCalls.

(** ** Round trips and frames *)

Section RoundTrips.
Context {V : Type}.
Implicit Types (c : Logged.Cache V) (k : string) (v : any V).
Implicit Types (it : Item V).

(** X1.  What [SetWithExpiration] or [Set] stores, [Get] returns: at once
    and up to [ttl] later for a positive [ttl], at any later time
    otherwise.  No assumption is made on the instant of the clock: the
    answer is the same where the [int64] timestamps wrap around. *)
Theorem Set_Get_round_trip c k v ttl e c' :
  ttl <= max_int64 ->
  0 <= e -> (0 < ttl -> e <= ttl) ->
  peek (Logged.clock c') = peek (Logged.clock c) + e ->
  (Logged.items c' !! k
     = Logged.items (exec (Logged.SetWithExpiration k v ttl) c) !! k ->
   eval (Logged.Get k) c' = (v, true)) /\
  (Logged.defaultExpiration c = ttl ->
   Logged.items c' !! k = Logged.items (exec (Logged.Set_ k v) c) !! k ->
   eval (Logged.Get k) c' = (v, true)).
Proof.
  intros Hmax He Hle Hclk.
  assert (Logged.items c' !! k
            = Logged.items (exec (Logged.SetWithExpiration k v ttl) c) !! k ->
          eval (Logged.Get k) c' = (v, true)) as Hset.
  { intros Hk. rewrite SetWithExpiration_items, lookup_insert_eq in Hk.
    rewrite Get_eval, Hk. simpl. unfold nowOf. rewrite Hclk.
    destruct (0 <? ttl) eqn:Ettl; [|done].
    change (peek (Logged.clock c) + e) with (Add (peek (Logged.clock c)) e).
    rewrite fresh_entry_not_expired; [done| |done].
    split; [done|]. apply Hle. lia. }
  split; [done|].
  intros Hd. rewrite Set_exec, Hd. exact Hset.
Qed.

(** X2.  [Get] asks the clock for the time only when the key holds an
    entry with a positive expiration.  On a missing key, and on an entry
    that never expires, it returns without touching the store at all: no
    clock reading, no log line. *)
Theorem Get_reads_clock_only_when_needed c k :
  (Logged.items c !! k = None -> Logged.Get k c = ((nil, false), c)) /\
  (forall it, Logged.items c !! k = Some it -> Expiration it <= 0 ->
     Logged.Get k c = ((Value it, true), c)) /\
  (forall it, Logged.items c !! k = Some it -> 0 < Expiration it ->
     Logged.clock (exec (Logged.Get k) c) = snd (Now (Logged.clock c)) /\
     cursor (Logged.clock (exec (Logged.Get k) c))
       = S (cursor (Logged.clock c))).
Proof.
  unfold exec, Logged.Get, bind, gets. simpl.
  split; [|split].
  - by intros ->.
  - intros it -> Hexp. unfold andThen.
    by assert ((0 <? Expiration it) = false) as -> by lia.
  - intros it -> Hexp. unfold andThen.
    assert ((0 <? Expiration it) = true) as -> by lia.
    unfold Logged.clockNow, Now, ret. simpl.
    by destruct (Expiration it <? UnixNano (peek (Logged.clock c))).
Qed.

(** X3.  [Set], [SetWithExpiration], [SetWithoutExpiration] and [Delete]
    on one key leave every other key as it was: the same entry in the
    map, and the same answer from [Get] at any time. *)
Theorem other_keys_untouched c k k' v ttl :
  k' <> k ->
  let after : list (Logged.Cache V) :=
    [exec (Logged.SetWithExpiration k v ttl) c;
     exec (Logged.Set_ k v) c;
     exec (Logged.SetWithoutExpiration k v) c;
     exec (Logged.Delete k) c] in
  forall c', c' ∈ after ->
    Logged.items c' !! k' = Logged.items c !! k' /\
    forall clk, eval (Logged.Get k') (Logged.withClock clk c')
                = eval (Logged.Get k') (Logged.withClock clk c).
Proof.
  intros Hne after c' Hin.
  assert (Logged.items c' !! k' = Logged.items c !! k') as Hk.
  { subst after. repeat (apply elem_of_cons in Hin as [->|Hin]).
    - by rewrite SetWithExpiration_items, lookup_insert_ne.
    - by rewrite Set_exec, SetWithExpiration_items, lookup_insert_ne.
    - unfold Logged.SetWithoutExpiration.
      by rewrite SetWithExpiration_items, lookup_insert_ne.
    - by rewrite Delete_items, lookup_delete_ne.
    - by apply elem_of_nil in Hin. }
  split; [done|]. intros clk. by apply Get_eval_ext.
Qed.


End RoundTrips.

(** ** More on the sweep and the cleanup loop *)

Section MoreSweep.
Context {V : Type}.
Implicit Types (c : Logged.Cache V) (k : string) (it : Item V).
Implicit Types (m : gmap string (Item V)).

Lemma exec_bind {S A B} (f : M S A) (g : A -> M S B) (s : S) :
  exec (bind f g) s = exec (g (eval f s)) (exec f s).
Proof. unfold exec, eval, bind. by destruct (f s). Qed.

Lemma sweep_subseteq now m : sweep now (map_to_list m) m ⊆ m.
Proof.
  apply map_subseteq_spec. intros k it Hk. by eapply sweep_lookup_Some.
Qed.



(** X7.  A sweep only takes entries away: the map afterwards is included
    in the map before and is no larger; and when no entry is expired at
    the reading of the clock, the map is left exactly as it was. *)
Theorem deleteExpired_shrinks c :
  let c' := exec Logged.deleteExpired c in
  Logged.items c' ⊆ Logged.items c /\
  (size (Logged.items c') <= size (Logged.items c))%nat /\
  ((forall k it, Logged.items c !! k = Some it -> ~ expired (nowOf c) it) ->
   Logged.items c' = Logged.items c).
Proof.
  intros c'. subst c'. rewrite deleteExpired_items.
  split; [apply sweep_subseteq|].
  split; [apply map_subseteq_size, sweep_subseteq|].
  intros Hlive. apply map_eq. intros k.
  rewrite sweep_range_lookup by done.
  destruct (Logged.items c !! k) as [it|] eqn:Hk; [|done].
  destruct ((0 <? Expiration it) && (Expiration it <? nowOf c)) eqn:E;
    [|done].
  apply andb_true_iff in E as [E1 E2].
  destruct (Hlive k it Hk). unfold expired. lia.
Qed.


End MoreSweep.

(** ** What a sequence of calls preserves *)

Section Invariants.
Context {V : Type}.
Implicit Types (c : Logged.Cache V) (o : Logged.Call V) (k : string).
Implicit Types (it : Item V) (v : any V).

Lemma TickerFires_exec c :
  Logged.call Logged.TickerFires c
  = match receivers (Logged.stopCleanup c) with
    | O => c
    | S _ => exec Logged.deleteExpired c
    end.
Proof. simpl. by destruct (receivers (Logged.stopCleanup c)). Qed.

Lemma SetWithExpiration_defaultExpiration c k v d :
  Logged.defaultExpiration (exec (Logged.SetWithExpiration k v d) c)
  = Logged.defaultExpiration c.
Proof.
  unfold exec, Logged.SetWithExpiration, bind. simpl. by destruct (0 <? d).
Qed.

Lemma Get_defaultExpiration c k :
  Logged.defaultExpiration (exec (Logged.Get k) c)
  = Logged.defaultExpiration c.
Proof.
  unfold exec, Logged.Get, bind, gets. simpl.
  destruct (Logged.items c !! k) as [it|]; [|done].
  unfold andThen. destruct (0 <? Expiration it); simpl; [|done].
  unfold Logged.clockNow, Now, ret. simpl.
  by destruct (Expiration it <? UnixNano (peek (Logged.clock c))).
Qed.

Lemma calls_defaultExpiration (os : list (Logged.Call V)) c :
  Logged.defaultExpiration (Logged.calls os c) = Logged.defaultExpiration c.
Proof.
  revert c. induction os as [|o os IH]; intros c; [done|].
  unfold Logged.calls in *. simpl. rewrite IH.
  destruct o; simpl;
    try apply SetWithExpiration_defaultExpiration;
    try apply Get_defaultExpiration; try done.
  by destruct (receivers (Logged.stopCleanup c)).
Qed.

Lemma Debug_quiet (l : Slog.Logger) s a :
  Slog.minLevel l <> Slog.LevelDebug -> Slog.Debug s a l = l.
Proof.
  unfold Slog.Debug, Slog.log. by destruct (Slog.minLevel l).
Qed.

Lemma SetWithExpiration_logger c k v d :
  Logged.logger (exec (Logged.SetWithExpiration k v d) c) = Logged.logger c.
Proof.
  unfold exec, Logged.SetWithExpiration, bind. simpl. by destruct (0 <? d).
Qed.

Lemma Get_logger c k :
  Logged.logger (exec (Logged.Get k) c)
  = match Logged.items c !! k with
    | Some it =>
        if (0 <? Expiration it) && (Expiration it <? nowOf c)
        then Slog.Debug "Item with key `"
               [k; "` found but expired. Not returning."] (Logged.logger c)
        else Logged.logger c
    | None => Logged.logger c
    end.
Proof.
  unfold exec, Logged.Get, bind, gets, nowOf. simpl.
  destruct (Logged.items c !! k) as [it|]; [|done].
  unfold andThen. destruct (0 <? Expiration it); simpl; [|done].
  unfold Logged.clockNow, Now, ret. simpl.
  by destruct (Expiration it <? UnixNano (peek (Logged.clock c))).
Qed.

Lemma call_logger_quiet o c :
  Slog.minLevel (Logged.logger c) <> Slog.LevelDebug ->
  Logged.logger (Logged.call o c) = Logged.logger c.
Proof.
  intros Hq. destruct o;
    try (simpl; apply SetWithExpiration_logger); try done.
  - simpl. rewrite Get_logger.
    destruct (Logged.items c !! key) as [it|]; [|done].
    destruct ((0 <? Expiration it) && (Expiration it <? nowOf c)); [|done].
    by apply Debug_quiet.
  - rewrite TickerFires_exec.
    destruct (receivers (Logged.stopCleanup c)); [done|].
    by apply Debug_quiet.
Qed.

Lemma calls_logger_quiet (os : list (Logged.Call V)) c :
  Slog.minLevel (Logged.logger c) <> Slog.LevelDebug ->
  Logged.logger (Logged.calls os c) = Logged.logger c.
Proof.
  revert c. induction os as [|o os IH]; intros c Hq; [done|].
  unfold Logged.calls in *. simpl.
  rewrite IH by (by rewrite call_logger_quiet).
  by apply call_logger_quiet.
Qed.

Lemma setupLogger_not_debug LOG_LEVEL :
  LOG_LEVEL <> "DEBUG" ->
  Slog.minLevel (Logged.setupLogger LOG_LEVEL) <> Slog.LevelDebug /\
  Slog.written (Logged.setupLogger LOG_LEVEL) = [].
Proof.
  intros Hne. apply String.eqb_neq in Hne.
  unfold Logged.setupLogger. rewrite Hne.
  destruct (String.eqb LOG_LEVEL ""); [done|]. simpl.
  split; [|done].
  by repeat match goal with |- context [String.eqb ?a ?b] =>
              destruct (String.eqb a b) end.
Qed.




Lemma Debug_minLevel (l : Slog.Logger) s a :
  Slog.minLevel (Slog.Debug s a l) = Slog.minLevel l.
Proof.
  unfold Slog.Debug, Slog.log.
  by destruct (Slog.severity (Slog.minLevel l) <=? Slog.severity Slog.LevelDebug).
Qed.

Lemma call_minLevel o c :
  Slog.minLevel (Logged.logger (Logged.call o c))
  = Slog.minLevel (Logged.logger c).
Proof.
  destruct o; try done.
  - unfold Logged.call. by rewrite Set_exec, SetWithExpiration_logger.
  - unfold Logged.call. by rewrite SetWithExpiration_logger.
  - unfold Logged.call. rewrite Get_logger.
    destruct (Logged.items c !! key) as [it|]; [|done].
    destruct ((0 <? Expiration it) && (Expiration it <? nowOf c)); [|done].
    apply Debug_minLevel.
  - rewrite TickerFires_exec.
    destruct (receivers (Logged.stopCleanup c)); [done|].
    apply Debug_minLevel.
Qed.

Lemma calls_minLevel (os : list (Logged.Call V)) c :
  Slog.minLevel (Logged.logger (Logged.calls os c))
  = Slog.minLevel (Logged.logger c).
Proof.
  revert c. induction os as [|o os IH]; intros c; [done|].
  unfold Logged.calls in *. simpl. rewrite IH. apply call_minLevel.
Qed.

End Invariants.

(** ** Life cycle, logging and configuration *)

Section MoreLifecycle.
Context {V : Type}.
Implicit Types (c : Logged.Cache V) (k : string) (v : any V).
Implicit Types (os : list (Logged.Call V)).

(** X9.  On a store built with a positive cleanup interval, whatever has
    been done with it since, the first [Stop] returns and changes nothing
    but the channel: the cleanup goroutine is gone, so that later ticks
    sweep nothing.  Any further [Stop] stays blocked on its send. *)
Theorem Stop_once_then_blocks LOG_LEVEL d i clk os :
  0 < i ->
  let c := Logged.calls os (Logged.NewCache LOG_LEVEL d i clk) in
  let c1 := exec Logged.Stop c in
  eval Logged.Stop c = Returned /\
  Logged.items c1 = Logged.items c /\
  Logged.clock c1 = Logged.clock c /\
  Logged.logger c1 = Logged.logger c /\
  Logged.call Logged.TickerFires c1 = c1 /\
  forall os', Logged.Stop (Logged.calls os' c1)
              = (BlockedOnSend, Logged.calls os' c1).
Proof.
  intros Hi c c1.
  destruct (calls_config os (Logged.NewCache LOG_LEVEL d i clk))
    as [Hint Hch].
  fold c in Hint, Hch. simpl in Hint, Hch.
  assert ((0 <? i) = true) as Hpos by lia. rewrite Hpos in Hch.
  assert (Logged.Stop c
          = (Returned,
             Logged.mkCache (Logged.items c) (Logged.defaultExpiration c)
               (Logged.cleanupInterval c) {| receivers := 0 |}
               (Logged.clock c) (Logged.logger c))) as Hstop.
  { unfold Logged.Stop. rewrite Hint, Hpos, Hch. reflexivity. }
  subst c1. unfold eval, exec. rewrite Hstop. simpl.
  repeat split.
  intros os'.
  match goal with |- context [Logged.calls os' ?s] => set (c1 := s) end.
  destruct (calls_config os' c1) as [Hint' Hch'].
  destruct (Logged.calls os' c1) as [m' d' i' ch' clk' lg'].
  subst c1. simpl in Hint', Hch'. subst i' ch'.
  unfold Logged.Stop. simpl. rewrite Hint, Hpos. reflexivity.
Qed.

(** X10.  Unless [LOG_LEVEL] is [DEBUG], a store never writes a log
    line, whatever is done with it: unset, [INFO], [WARN], [ERROR] and
    unrecognised values all silence the messages of [Get] and of the
    sweep. *)
Theorem quiet_unless_debug LOG_LEVEL d i clk os :
  LOG_LEVEL <> "DEBUG" ->
  Slog.written
    (Logged.logger (Logged.calls os (Logged.NewCache LOG_LEVEL d i clk)))
  = [].
Proof.
  intros Hne. destruct (setupLogger_not_debug LOG_LEVEL Hne) as [Hq Hw].
  by rewrite calls_logger_quiet.
Qed.

(** X11.  With [LOG_LEVEL=DEBUG], whatever has been done with the store,
    every sweep writes one line, [Get] writes one line exactly when it
    finds the entry expired, and [SetWithExpiration] and [Delete] write
    none. *)
Theorem debug_log_lines d i clk os k v ttl :
  let c := Logged.calls os (Logged.NewCache "DEBUG" d i clk) in
  let before := Slog.written (Logged.logger c) in
  Slog.written (Logged.logger (exec Logged.deleteExpired c))
    = before ++ [Slog.mkLine Slog.LevelDebug "Cleaning up expired items." []]
  /\
  Slog.written (Logged.logger (exec (Logged.Get k) c))
    = before ++
      (if snd (eval (Logged.Get k) c) then []
       else match Logged.items c !! k with
            | Some _ =>
                [Slog.mkLine Slog.LevelDebug "Item with key `"
                   [k; "` found but expired. Not returning."]]
            | None => []
            end) /\
  Slog.written (Logged.logger (exec (Logged.SetWithExpiration k v ttl) c))
    = before /\
  Slog.written (Logged.logger (exec (Logged.Delete k) c)) = before.
Proof.
  intros c before.
  assert (Slog.minLevel (Logged.logger c) = Slog.LevelDebug) as Hlv
    by (subst c; by rewrite calls_minLevel).
  split; [|split; [|split]].
  - simpl. unfold Slog.Debug, Slog.log. by rewrite Hlv.
  - rewrite Get_logger, Get_eval.
    destruct (Logged.items c !! k) as [it|]; [|by rewrite app_nil_r].
    destruct ((0 <? Expiration it) && (Expiration it <? nowOf c)); simpl;
      [|by rewrite app_nil_r].
    unfold Slog.Debug, Slog.log. by rewrite Hlv.
  - by rewrite SetWithExpiration_logger.
  - done.
Qed.

(** X12.  [Set] always uses the default expiration given to [NewCache]:
    no call changes it.  With a default that is not positive, what [Set]
    stores never expires. *)
Theorem Set_uses_construction_default LOG_LEVEL d i clk os k v :
  let c := Logged.calls os (Logged.NewCache LOG_LEVEL d i clk) in
  exec (Logged.Set_ k v) c = exec (Logged.SetWithExpiration k v d) c /\
  (d <= 0 ->
   Logged.items (exec (Logged.Set_ k v) c) !! k
   = Some {| Value := v; Expiration := 0 |}).
Proof.
  intros c.
  assert (Logged.defaultExpiration c = d) as Hd
    by (subst c; by rewrite calls_defaultExpiration).
  rewrite Set_exec, Hd. split; [done|].
  intros Hle. rewrite SetWithExpiration_items, lookup_insert_eq.
  by assert ((0 <? d) = false) as -> by lia.
Qed.


(** X17.  Sweeps run exactly on the stores built with a positive cleanup
    interval: there a firing of the ticker runs [deleteExpired], until
    [Stop]; on the others it finds no goroutine and nothing is ever swept.
    [NewDefaultCache] always builds a store of the first kind. *)
Theorem sweeps_iff_positive_interval LOG_LEVEL d i clk os :
  let c := Logged.calls os (Logged.NewCache LOG_LEVEL d i clk) in
  Logged.call Logged.TickerFires c
    = (if 0 <? i then exec Logged.deleteExpired c else c) /\
  (forall realClock,
     let c' := Logged.calls os
                 (Logged.NewDefaultCache LOG_LEVEL d realClock) in
     Logged.call Logged.TickerFires c' = exec Logged.deleteExpired c' /\
     eval Logged.Stop c' = Returned).
Proof.
  intros c. split.
  - rewrite TickerFires_exec.
    destruct (calls_config os (Logged.NewCache LOG_LEVEL d i clk))
      as [_ Hch].
    fold c in Hch. rewrite Hch. simpl. by destruct (0 <? i).
  - intros realClock c'.
    destruct (calls_config os (Logged.NewDefaultCache LOG_LEVEL d realClock))
      as [Hint Hch].
    fold c' in Hint, Hch. rewrite TickerFires_exec, Hch.
    split; [done|]. unfold eval, Logged.Stop. by rewrite Hint, Hch.
Qed.

End MoreLifecycle.

(** ** The two revisions, beyond the core operations *)

Section MoreRevisions.
Context {V : Type}.
Implicit Types (c : Logged.Cache V) (k : string) (v : any V).

Lemma erase_SetWithExpiration c k v ttl :
  Plain.SetWithExpiration k v ttl (erase c)
  = (tt, erase (exec (Logged.SetWithExpiration k v ttl) c)).
Proof.
  unfold exec, Plain.SetWithExpiration, Logged.SetWithExpiration, bind.
  simpl. by destruct (0 <? ttl).
Qed.

Lemma erase_deleteExpired c :
  Plain.deleteExpired (erase c) = (tt, erase (exec Logged.deleteExpired c)).
Proof. reflexivity. Qed.

(** X14.  The construction, [Set], [SetWithoutExpiration], [Stop] and the
    cleanup loop of [cache/cache.go] do what those of the revision
    without logging do: forgetting the logger turns the one store into
    the other, before and after each of them. *)
Theorem revisions_agree_on_life_cycle LOG_LEVEL d i clk c k v ws :
  erase (V:=V) (Logged.NewCache LOG_LEVEL d i clk) = Plain.NewCache d i clk /\
  Plain.Set_ k v (erase c) = (tt, erase (exec (Logged.Set_ k v) c)) /\
  Plain.SetWithoutExpiration k v (erase c)
    = (tt, erase (exec (Logged.SetWithoutExpiration k v) c)) /\
  Plain.Stop (erase c) = (eval Logged.Stop c, erase (exec Logged.Stop c)) /\
  Plain.startCleanupTimer ws (erase c)
    = (tt, erase (exec (Logged.startCleanupTimer ws) c)).
Proof.
  split; [done|]. split; [|split; [|split]].
  - rewrite Set_exec. unfold Plain.Set_, bind, gets.
    apply erase_SetWithExpiration.
  - apply erase_SetWithExpiration.
  - unfold eval, exec, Plain.Stop, Logged.Stop. simpl.
    destruct (0 <? Logged.cleanupInterval c); [|done].
    by destruct (send (Logged.stopCleanup c)).
  - revert c. induction ws as [|[|] ws IH]; intros c; [done| |done].
    simpl. rewrite exec_bind. unfold bind at 1.
    rewrite erase_deleteExpired. apply IH.
Qed.

End MoreRevisions.

(** ** Reading [Get]'s answer *)

Section Answers.
Context {V : Type}.
Implicit Types (c : Logged.Cache V) (k : string).

(** X15.  [Get] never makes a value up: with [true] it returns the value
    stored under the key, and with [false] it returns nil, whether the
    key is missing or its entry expired. *)
Theorem Get_returns_stored_value c k :
  (forall x, eval (Logged.Get k) c = (x, true) ->
     exists it, Logged.items c !! k = Some it /\ Value it = x) /\
  (forall x, eval (Logged.Get k) c = (x, false) -> x = nil).
Proof.
  rewrite Get_eval. destruct (Logged.items c !! k) as [it|].
  - destruct ((0 <? Expiration it) && (Expiration it <? nowOf c)).
    + split; intros x [= <-]. done.
    + split; intros x [= <-]. by exists it.
  - split; intros x [= <-]. done.
Qed.

(** X16.  A new store is empty: [Get] finds no key in it, at any time and
    without reading the clock, and a sweep leaves it empty. *)
Theorem NewCache_is_empty LOG_LEVEL d i clk k :
  let c : Logged.Cache V := Logged.NewCache LOG_LEVEL d i clk in
  size (Logged.items c) = 0%nat /\
  (forall clk', Logged.Get k (Logged.withClock clk' c)
                = ((nil, false), Logged.withClock clk' c)) /\
  Logged.items (exec Logged.deleteExpired c) = ∅.
Proof.
  intros c. split; [apply map_size_empty|]. split; [done|].
  rewrite deleteExpired_items. simpl. by rewrite map_to_list_empty.
Qed.

End Answers.

(** ** The further properties on the stores of the test suite *)

Section MoreScenarios.
Import Scenario.

#[local] Ltac by_computation :=
  vm_compute; repeat split; (reflexivity || discriminate).

Lemma Set_Get_round_trip_witness :
  eval (Logged.Get "foo") (exec (Logged.Set_ "foo" (Some "foo value")) atEpoch)
  = (Some "foo value", true).
Proof.
  apply (Set_Get_round_trip atEpoch "foo" (Some "foo value") Second 0
           (exec (Logged.Set_ "foo" (Some "foo value")) atEpoch));
    try reflexivity; by_computation.
Defined.

Lemma Get_reads_clock_only_when_needed_witness :
  Logged.Get "foo" atEpoch = ((nil, false), atEpoch) /\
  cursor (Logged.clock
            (exec (Logged.Get "foo")
               (exec (Logged.Set_ "foo" (Some "foo value")) atEpoch)))
  = 2%nat.
Proof.
  split.
  - apply (proj1 (Get_reads_clock_only_when_needed atEpoch "foo")).
    reflexivity.
  - apply (proj2 (proj2 (Get_reads_clock_only_when_needed
                           (exec (Logged.Set_ "foo" (Some "foo value"))
                              atEpoch) "foo"))
             {| Value := Some "foo value"; Expiration := Second |});
      by_computation.
Defined.

Lemma other_keys_untouched_witness :
  let c := exec (Logged.Set_ "foo" (Some "foo value")) atEpoch in
  Logged.items (exec (Logged.Delete "bar") c) !! "foo"
  = Logged.items c !! "foo".
Proof.
  intros c.
  assert ("foo" <> "bar") as Hne by discriminate.
  apply (other_keys_untouched c "bar" "foo" nil 0 Hne
           (exec (Logged.Delete "bar") c)).
  do 3 apply list_elem_of_further. apply list_elem_of_here.
Defined.




Lemma deleteExpired_shrinks_witness :
  let c := Logged.elapse (900 * Millisecond)
             (exec (Logged.Set_ "foo" (Some "foo value")) atEpoch) in
  Logged.items (exec Logged.deleteExpired c) = Logged.items c.
Proof.
  intros c.
  apply (proj2 (proj2 (deleteExpired_shrinks c))).
  intros k it Hk [_ Hlt].
  destruct (decide (k = "foo")) as [->|Hne].
  - assert (it = {| Value := Some "foo value"; Expiration := Second |})
      as -> by (apply (inj Some); rewrite <- Hk; reflexivity).
    vm_compute in Hlt. discriminate.
  - assert (Logged.items c !! k = None) as Hnone.
    { change (Logged.items c)
        with (<["foo" := {| Value := Some "foo value";
                            Expiration := Second |}]>
                (∅ : gmap string (Item string))).
      rewrite lookup_insert_ne by done. apply lookup_empty. }
    rewrite Hnone in Hk. discriminate.
Defined.

Lemma Stop_once_then_blocks_witness :
  let c := Logged.calls [Logged.CallSet "foo" (Some "foo value")] atEpoch in
  eval Logged.Stop c = Returned /\
  eval Logged.Stop (exec Logged.Stop c) = BlockedOnSend.
Proof.
  intros c.
  assert (0 < 2 * Second) as Hpos by by_computation.
  destruct (Stop_once_then_blocks "" Second (2 * Second) (NewFakeClockAt 0)
              [Logged.CallSet "foo" (Some "foo value")] Hpos)
    as (Hfirst & _ & _ & _ & _ & Hlater).
  split; [exact Hfirst|].
  exact (f_equal fst (Hlater [])).
Defined.

Lemma quiet_unless_debug_witness :
  Slog.written
    (Logged.logger
       (Logged.calls
          [Logged.CallSet "foo" (Some "foo value");
           Logged.TimePasses (NewFakeClockAt (3 * Second));
           Logged.CallGet "foo"; Logged.TickerFires]
          (Logged.NewCache "INFO" Second (2 * Second) (NewFakeClockAt 0))))
  = [].
Proof.
  apply (quiet_unless_debug "INFO"). discriminate.
Defined.

Lemma Set_uses_construction_default_witness :
  Logged.items
    (exec (Logged.Set_ "foo" (Some "foo value"))
       (Logged.calls [Logged.CallDelete "foo"]
          (Logged.NewCache "" 0 0 (NewFakeClockAt 0)))) !! "foo"
  = Some {| Value := Some "foo value"; Expiration := 0 |}.
Proof.
  apply (proj2 (Set_uses_construction_default "" 0 0 (NewFakeClockAt 0)
                  [Logged.CallDelete "foo"] "foo" (Some "foo value"))).
  by_computation.
Defined.


Lemma Get_returns_stored_value_witness :
  exists it,
    Logged.items (exec (Logged.Set_ "foo" (Some "foo value")) atEpoch) !! "foo"
    = Some it /\ Value it = Some "foo value".
Proof.
  apply (proj1 (Get_returns_stored_value
                  (exec (Logged.Set_ "foo" (Some "foo value")) atEpoch)
                  "foo")).
  reflexivity.
Defined.

End MoreScenarios.
